(** * redis-cpp: the RESP serializer of [redis-cpp/resp/serialization.h]

    A shallow embedding of the classes of namespace
    [rediscpp::resp::serialization] and of their [put] members, followed by
    the properties of the wire format they produce.

    Modelling conventions.
    - A [std::ostream] is the sequence of bytes written to it so far.  The
      stream is taken in its initial formatting state (decimal base, width 0,
      classic locale) and over a sink that accepts every byte, so that an
      inserter appends the characters it formats and nothing else.
    - [std::size_t] is an [N] and [int], [std::int64_t] and [std::streamsize]
      are [Z]; arithmetic that can leave the 64-bit range has its wrap-around
      written out.
    - A [std::string_view] is its data pointer, [None] for the null pointer of
      a default-constructed view and [Some] of the viewed characters
      otherwise.
    - A template argument of [array<T...>] is the code of a class of this
      header, the type of the item itself, as class template argument
      deduction gives it from [array(T && ... values)]. *)

From Stdlib Require Import List ZArith NArith Lia Bool String Strings.Byte.
Import ListNotations.

Local Open Scope N_scope.

(** ** The output stream *)

Definition char_type := byte.

Definition ostream := list char_type.

(** [operator<<] is overloaded on the type of its right operand. *)
Class Inserter (A : Type) := insert : ostream -> A -> ostream.

Notation "stream << x" := (insert stream x) (at level 50, left associativity).

#[export] Instance insert_char : Inserter char_type :=
  fun stream c => (stream ++ [c])%list.

(** *** Formatting of integers

    The digits of a number are produced from the least significant one, by
    repeated division by ten, until the quotient is zero; [fuel] bounds the
    number of divisions. *)

Definition digit_char (d : N) : char_type :=
  match d with
  | 0 => "0" | 1 => "1" | 2 => "2" | 3 => "3" | 4 => "4"
  | 5 => "5" | 6 => "6" | 7 => "7" | 8 => "8" | _ => "9"
  end%byte.

Fixpoint digits_loop (fuel : nat) (n : N) (acc : list char_type) : list char_type :=
  match fuel with
  | O => acc
  | S fuel' =>
      let acc' := digit_char (n mod 10) :: acc in
      if n / 10 =? 0 then acc' else digits_loop fuel' (n / 10) acc'
  end.

(** A number has no more decimal digits than binary ones. *)
Definition digits (n : N) : list char_type :=
  digits_loop (S (N.to_nat (N.log2 n))) n [].

Definition signed_digits (z : Z) : list char_type :=
  if (z <? 0)%Z then "-"%byte :: digits (Z.to_N (- z)) else digits (Z.to_N z).

(** [operator<<(unsigned long)], used for [std::size_t]. *)
#[export] Instance insert_size_t : Inserter N :=
  fun stream n => (stream ++ digits n)%list.

(** [operator<<(int)] and [operator<<(long)], used for [-1] and for
    [std::int64_t]. *)
#[export] Instance insert_int : Inserter Z :=
  fun stream z => (stream ++ signed_digits z)%list.

(** *** Fixed-width integers *)

Definition two64 : Z := 2 ^ 64.

(** [static_cast<std::int64_t>] and [static_cast<std::streamsize>]: the value
    modulo [2^64] that lies in the range of a signed 64-bit integer. *)
Definition to_int64 (z : Z) : Z :=
  let r := (z mod two64)%Z in
  if (r <? 2 ^ 63)%Z then r else (r - two64)%Z.

(** [++count] on a [std::size_t]. *)
Definition size_incr (count : N) : N := (count + 1) mod 2 ^ 64.

(** ** [std::string_view] *)

Module string_view.

Record t := make { data : option (list char_type) }.

(** [std::string_view{}]: null data pointer, length zero. *)
Definition empty : t := {| data := None |}.

Definition of_bytes (text : list char_type) : t := {| data := Some text |}.

Definition chars (v : t) : list char_type :=
  match data v with
  | Some text => text
  | None => []
  end.

Definition length (v : t) : N := N.of_nat (List.length (chars v)).

End string_view.

(** [operator<<(std::ostream &, std::string_view)] writes the viewed
    characters as they are. *)
#[export] Instance insert_string_view : Inserter string_view.t :=
  fun stream v => (stream ++ string_view.chars v)%list.

(** [std::ostream::write(s, n)]: the first [n] characters of the storage at
    [s].  The source is undefined when [n] is negative or exceeds that
    storage; the model then copies what is there. *)
Definition ostream_write (stream : ostream) (s : list char_type) (n : Z) : ostream :=
  (stream ++ firstn (Z.to_nat n) s)%list.

(** ** Markers

    The header [redis-cpp/resp/detail/marker.h], which declares the constants
    of namespace [detail::marker], is not among the sources at hand. *)

Module marker.

(** Modelled from the spec: the constants of [detail/marker.h], absent from
    the sources, with the values of the wire-format table of the
    specification.  This one is the marker of a simple string. *)
Definition simple_string : char_type := "+"%byte.

(** Modelled from the spec: the marker of an error ([detail/marker.h] is
    absent). *)
Definition error_message : char_type := "-"%byte.

(** Modelled from the spec: the marker of an integer ([detail/marker.h] is
    absent). *)
Definition integer : char_type := ":"%byte.

(** Modelled from the spec: the marker of a bulk string ([detail/marker.h] is
    absent). *)
Definition bulk_string : char_type := "$"%byte.

(** Modelled from the spec: the marker of an array ([detail/marker.h] is
    absent). *)
Definition array : char_type := "*"%byte.

(** Modelled from the spec: the first byte of the terminator, a carriage
    return ([detail/marker.h] is absent). *)
Definition cr : char_type := x0d.

(** Modelled from the spec: the second byte of the terminator, a line feed
    ([detail/marker.h] is absent). *)
Definition lf : char_type := x0a.

End marker.

(** ** The generic entry point

    [template <typename T> void put(std::ostream &stream, T &&value)] calls
    [value.put(stream)]: it accepts every class that has a [put] member. *)

Class Serializable (T : Type) := put : T -> ostream -> ostream.

Definition serialization_put {T : Type} `{Serializable T}
    (stream : ostream) (value : T) : ostream :=
  put value stream.

(** ** Scalar classes *)

Module simple_string.

Record t := make { value_ : string_view.t }.

Definition put (self : t) (stream : ostream) : ostream :=
  stream << marker.simple_string
         << value_ self
         << marker.cr
         << marker.lf.

End simple_string.

#[export] Instance simple_string_serializable : Serializable simple_string.t :=
  simple_string.put.

Module error_message.

Record t := make { value_ : string_view.t }.

Definition put (self : t) (stream : ostream) : ostream :=
  stream << marker.error_message
         << value_ self
         << marker.cr
         << marker.lf.

End error_message.

#[export] Instance error_message_serializable : Serializable error_message.t :=
  error_message.put.

(** The integral types, those that satisfy [std::is_integral_v]. *)
Inductive integral :=
| bool_ | char_ | signed_char | unsigned_char
| wchar_t_ | char16_t_ | char32_t_
| short_ | unsigned_short | int_ | unsigned_int
| long_ | unsigned_long | long_long | unsigned_long_long.

Definition bits (T : integral) : Z :=
  match T with
  | bool_ => 1
  | char_ | signed_char | unsigned_char => 8
  | char16_t_ | short_ | unsigned_short => 16
  | wchar_t_ | char32_t_ | int_ | unsigned_int => 32
  | long_ | unsigned_long | long_long | unsigned_long_long => 64
  end.

Definition is_signed (T : integral) : bool :=
  match T with
  | char_ | signed_char | wchar_t_ | short_ | int_ | long_ | long_long => true
  | _ => false
  end.

(** The values an object of type [T] can hold. *)
Definition in_range (T : integral) (v : Z) : Prop :=
  if is_signed T
  then (- 2 ^ (bits T - 1) <= v < 2 ^ (bits T - 1))%Z
  else (0 <= v < 2 ^ bits T)%Z.

Module integer.

Record t (T : integral) := make { value_ : Z }.
Arguments make {T} _.
Arguments value_ {T} _.

Definition put {T : integral} (self : t T) (stream : ostream) : ostream :=
  stream << marker.integer
         << to_int64 (value_ self)
         << marker.cr
         << marker.lf.

End integer.

#[export] Instance integer_serializable (T : integral) : Serializable (integer.t T) :=
  integer.put.

Module bulk_string.

Record t := make { value_ : string_view.t }.

(** [bulk_string()]: the view is value-initialised. *)
Definition default : t := {| value_ := string_view.empty |}.

Definition put (self : t) (stream : ostream) : ostream :=
  match string_view.data (value_ self) with
  | Some _ =>
      stream << marker.bulk_string
             << string_view.length (value_ self)
             << marker.cr
             << marker.lf
             << value_ self
             << marker.cr
             << marker.lf
  | None =>
      stream << marker.bulk_string
             << (-1)%Z
             << marker.cr
             << marker.lf
  end.

End bulk_string.

#[export] Instance bulk_string_serializable : Serializable bulk_string.t :=
  bulk_string.put.

Module binary_data.

(** [data_] is [None] for a null pointer and otherwise the storage the
    pointer refers to; [length_] is whatever the caller passed. *)
Record t := make { data_ : option (list char_type); length_ : N }.

Definition put (self : t) (stream : ostream) : ostream :=
  match data_ self with
  | Some storage =>
      let stream := stream << marker.bulk_string
                           << length_ self
                           << marker.cr
                           << marker.lf in
      let stream := ostream_write stream storage
                      (to_int64 (Z.of_N (length_ self))) in
      stream << marker.cr
             << marker.lf
  | None =>
      stream << marker.bulk_string
             << (-1)%Z
             << marker.cr
             << marker.lf
  end.

End binary_data.

#[export] Instance binary_data_serializable : Serializable binary_data.t :=
  binary_data.put.

Module null.

Inductive t : Set := make.

Definition put (self : t) (stream : ostream) : ostream :=
  serialization_put stream bulk_string.default.

End null.

#[export] Instance null_serializable : Serializable null.t := null.put.

(** ** Arrays *)

Module array.

(** [std::forward_list<std::string_view>] *)
Definition list_type := list string_view.t.

(** The primary template [array<T...>].  It is a class for every
    [tuple_type = std::tuple<std::decay_t<T>...>]; [tuple_size] is
    [std::tuple_size_v<tuple_type>] and [apply_put values stream] is
    [std::apply] of the printer to the tuple, which calls
    [serialization::put(stream, arg)] on each of its members in turn. *)
Section primary.

Variable tuple_type : Type.
Variable tuple_size : N.
Variable apply_put : tuple_type -> ostream -> ostream.

(** [std::variant<tuple_type, list_type>] *)
Inductive holder_type :=
| holds_tuple (values : tuple_type)
| holds_list (values : list_type).

Record primary := make { values_ : holder_type }.

(** [array(T && ... values)] *)
Definition of_values (values : tuple_type) : primary :=
  {| values_ := holds_tuple values |}.

(** [array(list_type const &list)] *)
Definition of_list (list : list_type) : primary :=
  {| values_ := holds_list list |}.

Definition put (self : primary) (stream : ostream) : ostream :=
  match values_ self with
  | holds_tuple values =>
      let stream := stream << marker.array
                           << tuple_size
                           << marker.cr
                           << marker.lf in
      apply_put values stream
  | holds_list values =>
      let count := fold_left (fun count _ => size_incr count) values 0 in
      let stream := stream << marker.array
                           << count
                           << marker.cr
                           << marker.lf in
      fold_left
        (fun stream i =>
           serialization_put stream {| simple_string.value_ := i |})
        values stream
  end.

End primary.

Arguments holds_tuple {tuple_type} _.
Arguments holds_list {tuple_type} _.
Arguments values_ {tuple_type} _.
Arguments of_values {tuple_type} _.
Arguments of_list {tuple_type} _.
Arguments put {tuple_type} _ _ _ _.

(** The explicit specialisation [array<null>]: it has no data member. *)
Inductive null_array : Set := make_null.

(** [array(null const &)] *)
Definition of_null (_ : null.t) : null_array := make_null.

Definition put_null (self : null_array) (stream : ostream) : ostream :=
  stream << marker.array
         << (-1)%Z
         << marker.cr
         << marker.lf.

End array.

(** ** The classes of the header as a universe of types

    [array] is a template over a pack of types, and the specialisation
    [array<null>] is chosen by the pack alone.  The classes are therefore
    given codes, over which the choice is a function. *)

#[local] Unset Elimination Schemes.

Inductive type :=
| Tsimple_string
| Terror_message
| Tinteger (T : integral)
| Tbulk_string
| Tbinary_data
| Tnull
| Tarray (Ts : list type).

#[local] Set Elimination Schemes.

(** Is [array<Ts...>] the specialisation [array<null>]? *)
Definition is_null_pack (Ts : list type) : bool :=
  match Ts with
  | [Tnull] => true
  | _ => false
  end.

Section tuple.

Variable object : type -> Type.

(** [std::tuple<Ts...>] *)
Fixpoint tuple (Ts : list type) : Type :=
  match Ts with
  | [] => unit
  | T :: Ts' => (object T * tuple Ts')%type
  end.

Variable put_object : forall T, Serializable (object T).

(** [(print(args), ...)], where [print(arg)] is
    [serialization::put(stream, arg)]: the members are put from the first to
    the last. *)
Fixpoint put_each (Ts : list type) : tuple Ts -> ostream -> ostream :=
  match Ts with
  | [] => fun _ stream => stream
  | T :: Ts' => fun values stream =>
      put_each Ts' (snd values) (serialization_put stream (fst values))
  end.

End tuple.

(** The class that a code denotes. *)
Fixpoint object (T : type) : Type :=
  match T with
  | Tsimple_string => simple_string.t
  | Terror_message => error_message.t
  | Tinteger K => integer.t K
  | Tbulk_string => bulk_string.t
  | Tbinary_data => binary_data.t
  | Tnull => null.t
  | Tarray Ts =>
      if is_null_pack Ts return Type then array.null_array
      else array.primary (tuple object Ts)
  end.

(** The [put] member of each class. *)
Fixpoint put_object (T : type) : object T -> ostream -> ostream :=
  match T as T' return object T' -> ostream -> ostream with
  | Tsimple_string => simple_string.put
  | Terror_message => error_message.put
  | Tinteger K => integer.put
  | Tbulk_string => bulk_string.put
  | Tbinary_data => binary_data.put
  | Tnull => null.put
  | Tarray Ts =>
      match is_null_pack Ts as b
        return (if b return Type then array.null_array
                else array.primary (tuple object Ts)) -> ostream -> ostream
      with
      | true => array.put_null
      | false =>
          array.put (N.of_nat (List.length Ts)) (put_each object put_object Ts)
      end
  end.

#[export] Instance object_serializable (T : type) : Serializable (object T) :=
  put_object T.

(** Construction of [array<Ts...>] from [values...]: the constructor of the
    class that the pack selects. *)
Definition make_array (Ts : list type) : tuple object Ts -> object (Tarray Ts) :=
  match Ts as Ts' return tuple object Ts' -> object (Tarray Ts') with
  | [Tnull] => fun values => array.of_null (fst values)
  | _ => fun values => array.of_values values
  end.

(** Construction of [array<Ts...>] from a list: only the primary template
    declares [array(list_type const &)], so that no object results when the
    pack selects the specialisation. *)
Definition make_list_array (Ts : list type) (list : array.list_type)
    : option (object (Tarray Ts)) :=
  match is_null_pack Ts as b
    return option (if b return Type then array.null_array
                   else array.primary (tuple object Ts))
  with
  | true => None
  | false => Some (array.of_list list)
  end.

(** The bytes that an object writes of its own, on a stream that holds
    nothing yet. *)
Definition encoding (T : type) (value : object T) : list char_type :=
  put_object T value [].

Fixpoint encodings (Ts : list type) : tuple object Ts -> list (list char_type) :=
  match Ts as Ts' return tuple object Ts' -> list (list char_type) with
  | [] => fun _ => []
  | T :: Ts' => fun values =>
      encoding T (fst values) :: encodings Ts' (snd values)
  end.

(** Characters of a literal and the terminator, for statements. *)
Definition text (s : string) : list char_type := list_byte_of_string s.

Definition crlf : list char_type := [marker.cr; marker.lf].

(** The wire form of an array of a fixed pack of items: the arity, and then
    what every item writes of its own, one after the other. *)
Definition fixed_array_form (Ts : list type) (values : tuple object Ts)
    : list char_type :=
  (text "*" ++ digits (N.of_nat (List.length Ts)) ++ crlf
   ++ List.concat (encodings Ts values))%list.

(** ** Canonical decimal notation

    What the specification calls the canonical base-10 representation: the
    decimal digits of the magnitude, the most significant first and without
    leading zeros, after a minus sign when the number is negative and after
    nothing otherwise. *)

Definition is_digit (c : char_type) : bool :=
  (48 <=? Byte.to_N c) && (Byte.to_N c <=? 57).

Definition digit_value (c : char_type) : N := Byte.to_N c - 48.

Definition number_of (s : list char_type) : N :=
  fold_left (fun v c => 10 * v + digit_value c) s 0.

Definition canonical_unsigned (s : list char_type) : bool :=
  match s with
  | [] => false
  | [c] => is_digit c
  | c :: rest =>
      is_digit c && negb (Byte.eqb c "0"%byte) && forallb is_digit rest
  end.

Definition canonical_decimal (s : list char_type) (z : Z) : Prop :=
  if (z <? 0)%Z
  then exists m, s = "-"%byte :: m
                 /\ canonical_unsigned m = true
                 /\ number_of m = Z.to_N (- z)
  else canonical_unsigned s = true /\ number_of s = Z.to_N z.

(** ** Reading a simple string back *)

(** Modelled from the spec: does a text contain the terminator sequence
    [\r\n]?  (The constraint that the specification puts on the text of a
    simple string.) *)
Fixpoint has_terminator (s : list char_type) : bool :=
  match s with
  | [] => false
  | c :: rest =>
      match rest with
      | c' :: _ =>
          (Byte.eqb c marker.cr && Byte.eqb c' marker.lf) || has_terminator rest
      | [] => false
      end
  end.

(** Modelled from the spec: the reader of replies is not among the sources;
    a line is read as the characters before the first terminator, and what
    follows that terminator is left. *)
Fixpoint read_line (s : list char_type)
    : option (list char_type * list char_type) :=
  match s with
  | [] => None
  | c :: rest =>
      match rest with
      | c' :: after =>
          if Byte.eqb c marker.cr && Byte.eqb c' marker.lf
          then Some ([], after)
          else option_map (fun r => (c :: fst r, snd r)) (read_line rest)
      | [] => None
      end
  end.

(** Modelled from the spec: the reader of replies is not among the sources at
    hand.  By the wire form [+<text>\r\n] of the specification, a simple
    string is the text between the marker ['+'] and the terminator that
    follows it, and a unit ends with that terminator. *)
Definition decode_simple_string (bytes : list char_type)
    : option (list char_type) :=
  match bytes with
  | c :: rest =>
      if Byte.eqb c marker.simple_string
      then match read_line rest with
           | Some (line, []) => Some line
           | _ => None
           end
      else None
  | [] => None
  end.

(** Modelled from the spec: decoding as the removal of the leading ['+'] and
    of the trailing two-byte terminator. *)
Definition strip_frame (bytes : list char_type) : option (list char_type) :=
  match bytes with
  | c :: rest =>
      match rev rest with
      | l :: r :: reversed =>
          if Byte.eqb c marker.simple_string
             && Byte.eqb r marker.cr && Byte.eqb l marker.lf
          then Some (rev reversed)
          else None
      | _ => None
      end
  | [] => None
  end.

(** ** Packs of one class *)

(** The marker that the [put] member of a class writes first. *)
Definition marker_of (T : type) : char_type :=
  match T with
  | Tsimple_string => marker.simple_string
  | Terror_message => marker.error_message
  | Tinteger _ => marker.integer
  | Tbulk_string | Tbinary_data | Tnull => marker.bulk_string
  | Tarray _ => marker.array
  end.

(** The tuple of the pack [<T, ..., T>] that holds the objects of a list, in
    the order of the list. *)
Fixpoint uniform (T : type) (values : list (object T))
    : tuple object (repeat T (List.length values)) :=
  match values as l return tuple object (repeat T (List.length l)) with
  | [] => tt
  | value :: values' => (value, uniform T values')
  end.

(** ** Induction on the codes of classes *)

Section type_induction.

Variable P : type -> Prop.
Hypothesis Hsimple_string : P Tsimple_string.
Hypothesis Herror_message : P Terror_message.
Hypothesis Hinteger : forall K, P (Tinteger K).
Hypothesis Hbulk_string : P Tbulk_string.
Hypothesis Hbinary_data : P Tbinary_data.
Hypothesis Hnull : P Tnull.
Hypothesis Harray : forall Ts, Forall P Ts -> P (Tarray Ts).

Fixpoint type_ind (T : type) : P T :=
  match T with
  | Tsimple_string => Hsimple_string
  | Terror_message => Herror_message
  | Tinteger K => Hinteger K
  | Tbulk_string => Hbulk_string
  | Tbinary_data => Hbinary_data
  | Tnull => Hnull
  | Tarray Ts =>
      Harray Ts
        ((fix all (Ts : list type) : Forall P Ts :=
            match Ts with
            | [] => Forall_nil P
            | T :: Ts' => Forall_cons T (type_ind T) (all Ts')
            end) Ts)
  end.

End type_induction.

(** ** Tactics *)

(** The inserters as appends. *)
Ltac unfold_inserters :=
  cbv [insert insert_char insert_size_t insert_int insert_string_view
       ostream_write serialization_put put
       simple_string_serializable error_message_serializable
       integer_serializable bulk_string_serializable
       binary_data_serializable null_serializable].

Ltac solve_append :=
  unfold_inserters; repeat rewrite <- app_assoc; cbn [app]; try reflexivity.

Ltac unfold_inserters_in H :=
  cbv [insert insert_char insert_size_t insert_int insert_string_view
       ostream_write serialization_put put] in H.

(** Right-nested appends, in the goal and in a hypothesis. *)
Ltac flatten_app :=
  repeat (progress (repeat rewrite <- app_assoc; cbn [app])).

Ltac flatten_app_in H :=
  repeat (progress (repeat rewrite <- app_assoc in H; cbn [app] in H)).

(** * Properties *)

(** ** The digit loop *)

Lemma digits_loop_app (fuel : nat) :
  forall n acc tail,
    digits_loop fuel n (acc ++ tail) = (digits_loop fuel n acc ++ tail)%list.
Proof.
  induction fuel as [|fuel IH]; intros n acc tail; simpl.
  - reflexivity.
  - destruct (n / 10 =? 0).
    + reflexivity.
    + exact (IH (n / 10) (digit_char (n mod 10) :: acc) tail).
Qed.

Lemma div10_bound (n : N) (k : nat) :
  n < 2 ^ N.of_nat (S k) -> n / 10 < 2 ^ N.of_nat k.
Proof.
  intros Hn.
  apply N.Div0.div_lt_upper_bound.
  rewrite Nnat.Nat2N.inj_succ, N.pow_succ_r' in Hn.
  lia.
Qed.

(** Once it suffices, the amount of fuel does not matter. *)
Lemma digits_loop_fuel (k1 : nat) :
  forall k2 n acc,
    n < 2 ^ N.of_nat (S k1) -> n < 2 ^ N.of_nat (S k2) ->
    digits_loop (S k1) n acc = digits_loop (S k2) n acc.
Proof.
  induction k1 as [|k1 IH]; intros k2 n acc H1 H2;
    cbn [digits_loop]; destruct (n / 10 =? 0) eqn:Hq; try reflexivity;
    apply N.eqb_neq in Hq;
    pose proof (div10_bound _ _ H1) as B1;
    pose proof (div10_bound _ _ H2) as B2.
  - change (2 ^ N.of_nat 0) with 1 in B1. apply N.lt_1_r in B1. contradiction.
  - destruct k2 as [|k2].
    + change (2 ^ N.of_nat 0) with 1 in B2. apply N.lt_1_r in B2. contradiction.
    + apply IH; assumption.
Qed.

Lemma log2_fuel (n : N) : n < 2 ^ N.of_nat (S (N.to_nat (N.log2 n))).
Proof.
  rewrite Nnat.Nat2N.inj_succ, Nnat.N2Nat.id.
  destruct (N.eq_dec n 0) as [->|Hn].
  - reflexivity.
  - apply N.log2_spec. lia.
Qed.

Lemma digits_small (n : N) : n < 10 -> digits n = [digit_char n].
Proof.
  intros Hn. unfold digits. cbn [digits_loop].
  rewrite (N.div_small n 10 Hn), (N.mod_small n 10 Hn). reflexivity.
Qed.

Lemma digits_step (n : N) :
  10 <= n -> digits n = (digits (n / 10) ++ [digit_char (n mod 10)])%list.
Proof.
  intros Hn.
  assert (Hq : n / 10 <> 0).
  { intros E. apply N.div_small_iff in E; lia. }
  unfold digits at 1. cbn [digits_loop].
  apply N.eqb_neq in Hq as Hq'. rewrite Hq'.
  change [digit_char (n mod 10)] with ([] ++ [digit_char (n mod 10)])%list at 1.
  rewrite digits_loop_app. f_equal.
  pose proof (log2_fuel n) as Bn.
  destruct (N.to_nat (N.log2 n)) as [|k] eqn:Ek.
  - change (2 ^ N.of_nat 1) with 2 in Bn. lia.
  - unfold digits. apply digits_loop_fuel.
    + apply div10_bound. exact Bn.
    + apply log2_fuel.
Qed.

Lemma digit_char_spec (d : N) :
  d < 10 ->
  is_digit (digit_char d) = true
  /\ digit_value (digit_char d) = d
  /\ (d <> 0 -> digit_char d <> "0"%byte).
Proof.
  intros Hd.
  assert (d = 0 \/ d = 1 \/ d = 2 \/ d = 3 \/ d = 4 \/
          d = 5 \/ d = 6 \/ d = 7 \/ d = 8 \/ d = 9) as C by lia.
  repeat (destruct C as [->|C]); try subst d;
    (split; [reflexivity | split; [reflexivity | intros; try discriminate; congruence]]).
Qed.

Lemma number_of_snoc (s : list char_type) (c : char_type) :
  number_of (s ++ [c]) = 10 * number_of s + digit_value c.
Proof. unfold number_of. rewrite fold_left_app. reflexivity. Qed.

(** The digits written for [n] are digits, they denote [n], and the first of
    them is not a zero unless [n] is zero. *)
Lemma digits_spec (n : N) :
  digits n <> []
  /\ forallb is_digit (digits n) = true
  /\ (n <> 0 -> hd "0"%byte (digits n) <> "0"%byte)
  /\ number_of (digits n) = n.
Proof.
  induction n as [n IH] using (well_founded_induction N.lt_wf_0).
  destruct (N.lt_ge_cases n 10) as [Hs|Hl].
  - rewrite (digits_small n Hs).
    destruct (digit_char_spec n Hs) as (D & V & Z).
    repeat split.
    + discriminate.
    + cbn. rewrite D. reflexivity.
    + exact Z.
    + cbn. rewrite V. reflexivity.
  - rewrite (digits_step n Hl).
    assert (Hlt : n / 10 < n) by (apply N.div_lt; lia).
    assert (Hq : n / 10 <> 0).
    { intros E. apply N.div_small_iff in E; lia. }
    destruct (IH (n / 10) Hlt) as (Ne & F & H & V).
    destruct (digit_char_spec (n mod 10)) as (D & Vd & _).
    { apply N.mod_lt. discriminate. }
    repeat split.
    + intros E. apply app_eq_nil in E. destruct E as [_ E]. discriminate.
    + rewrite forallb_app, F. cbn. rewrite D. reflexivity.
    + intros _. destruct (digits (n / 10)) as [|c rest]; [congruence|].
      cbn. cbn in H. auto.
    + rewrite number_of_snoc, V, Vd.
      symmetry. apply N.div_mod'.
Qed.

Lemma digits_canonical (n : N) : canonical_unsigned (digits n) = true.
Proof.
  destruct (N.eq_dec n 0) as [->|Hn]; [reflexivity|].
  destruct (digits_spec n) as (Ne & F & H & _).
  specialize (H Hn).
  destruct (digits n) as [|c tl]; [congruence|].
  cbn [forallb] in F. apply andb_true_iff in F. destruct F as [Fc Fr].
  cbn [hd] in H.
  destruct tl as [|c' rest]; cbn [canonical_unsigned].
  - exact Fc.
  - rewrite Fc, Fr.
    destruct (Byte.eqb c "0"%byte) eqn:E; [|reflexivity].
    apply Byte.byte_dec_bl in E. contradiction.
Qed.

Lemma digit_char_value (c : char_type) :
  is_digit c = true -> digit_value c < 10 /\ digit_char (digit_value c) = c.
Proof. destruct c; intros H; try discriminate H; split; reflexivity. Qed.

Lemma canonical_unsigned_inv (s : list char_type) :
  canonical_unsigned s = true ->
  s <> [] /\ forallb is_digit s = true
  /\ (hd "0"%byte s = "0"%byte -> s = ["0"%byte]).
Proof.
  destruct s as [|c [|c' rest]]; cbn [canonical_unsigned]; intros H.
  - discriminate.
  - repeat split; [discriminate | cbn; rewrite H; reflexivity |].
    cbn. intros ->. reflexivity.
  - apply andb_true_iff in H. destruct H as [H Fr].
    apply andb_true_iff in H. destruct H as [Fc Nz].
    repeat split; [discriminate | cbn [forallb]; rewrite Fc; exact Fr |].
    cbn [hd]. intros ->. discriminate.
Qed.

(** A canonical numeral is the one that the digit loop writes for its value:
    there is one canonical numeral for each number. *)
Lemma digits_unique (s : list char_type) :
  canonical_unsigned s = true -> digits (number_of s) = s.
Proof.
  intros C. apply canonical_unsigned_inv in C. revert C.
  induction s as [|c s IH] using rev_ind; intros (Ne & F & H).
  - congruence.
  - rewrite forallb_app in F. apply andb_true_iff in F.
    destruct F as [Fs Fc]. cbn in Fc. rewrite andb_true_r in Fc.
    destruct (digit_char_value c Fc) as [Vc Dc].
    rewrite number_of_snoc.
    destruct s as [|c0 s].
    + change (number_of []) with 0. rewrite N.mul_0_r, N.add_0_l.
      rewrite digits_small by exact Vc. rewrite Dc. reflexivity.
    + assert (Hs : digits (number_of (c0 :: s)) = c0 :: s).
      { apply IH. repeat split; [discriminate | exact Fs |].
        cbn [hd]. intros E. cbn [hd app] in H. specialize (H E).
        destruct s; discriminate H. }
      assert (Hv : number_of (c0 :: s) <> 0).
      { intros E. rewrite E in Hs. cbn in Hs.
        injection Hs as <- <-. cbn [hd app] in H.
        specialize (H eq_refl). discriminate H. }
      set (v := number_of (c0 :: s)) in *.
      assert (Q : (10 * v + digit_value c) / 10 = v).
      { symmetry. eapply N.div_unique; eauto. }
      assert (R : (10 * v + digit_value c) mod 10 = digit_value c).
      { symmetry. eapply N.mod_unique; eauto. }
      rewrite digits_step by lia.
      rewrite Q, R, Hs, Dc. reflexivity.
Qed.

Lemma digits_head (n : N) :
  exists c rest, digits n = c :: rest /\ is_digit c = true.
Proof.
  destruct (digits_spec n) as (Ne & F & _).
  destruct (digits n) as [|c rest]; [congruence|].
  exists c, rest. split; [reflexivity|].
  cbn in F. apply andb_true_iff in F. tauto.
Qed.

Lemma digits_zero_head (n : N) (rest : list char_type) :
  digits n = "0"%byte :: rest -> n = 0 /\ rest = [].
Proof.
  intros E. destruct (N.eq_dec n 0) as [->|Hn].
  - cbn in E. injection E as <-. split; reflexivity.
  - destruct (digits_spec n) as (_ & _ & H & _).
    specialize (H Hn). rewrite E in H. cbn in H. congruence.
Qed.

Lemma digits_inj (n m : N) : digits n = digits m -> n = m.
Proof.
  intros E.
  destruct (digits_spec n) as (_ & _ & _ & Vn).
  destruct (digits_spec m) as (_ & _ & _ & Vm).
  rewrite <- Vn, <- Vm, E. reflexivity.
Qed.

Lemma signed_digits_canonical (z : Z) : canonical_decimal (signed_digits z) z.
Proof.
  unfold canonical_decimal, signed_digits.
  destruct (z <? 0)%Z.
  - exists (digits (Z.to_N (- z))). repeat split.
    + apply digits_canonical.
    + apply digits_spec.
  - split; [apply digits_canonical | apply digits_spec].
Qed.

Lemma canonical_decimal_unique (s : list char_type) (z : Z) :
  canonical_decimal s z -> s = signed_digits z.
Proof.
  unfold canonical_decimal, signed_digits.
  destruct (z <? 0)%Z.
  - intros (m & -> & C & V). rewrite <- V, (digits_unique m C). reflexivity.
  - intros (C & V). rewrite <- V, (digits_unique s C). reflexivity.
Qed.

(** ** Conversion to 64 bits *)

Lemma to_int64_range (z : Z) : (- 2 ^ 63 <= to_int64 z < 2 ^ 63)%Z.
Proof.
  unfold to_int64, two64.
  destruct (z mod 2 ^ 64 <? 2 ^ 63)%Z eqn:E;
    [apply Z.ltb_lt in E | apply Z.ltb_ge in E];
    Z.div_mod_to_equations; lia.
Qed.

Lemma to_int64_congruent (z : Z) : exists k, (to_int64 z = z + k * 2 ^ 64)%Z.
Proof.
  unfold to_int64, two64.
  destruct (z mod 2 ^ 64 <? 2 ^ 63)%Z.
  - exists (- (z / 2 ^ 64))%Z. Z.div_mod_to_equations. lia.
  - exists (- (z / 2 ^ 64) - 1)%Z. Z.div_mod_to_equations. lia.
Qed.

Lemma to_int64_id (z : Z) : (- 2 ^ 63 <= z < 2 ^ 63)%Z -> to_int64 z = z.
Proof.
  intros H. unfold to_int64, two64.
  destruct (z mod 2 ^ 64 <? 2 ^ 63)%Z eqn:E;
    [apply Z.ltb_lt in E | apply Z.ltb_ge in E];
    Z.div_mod_to_equations; lia.
Qed.

Lemma to_int64_high (z : Z) :
  (2 ^ 63 <= z < 2 ^ 64)%Z -> to_int64 z = (z - 2 ^ 64)%Z.
Proof.
  intros H. unfold to_int64, two64.
  destruct (z mod 2 ^ 64 <? 2 ^ 63)%Z eqn:E;
    [apply Z.ltb_lt in E | apply Z.ltb_ge in E];
    Z.div_mod_to_equations; lia.
Qed.

(** Every value of an integral type converts to itself, but for the upper
    half of the unsigned 64-bit types. *)
Lemma to_int64_in_range (T : integral) (v : Z) :
  in_range T v ->
  to_int64 v = if (v <? 2 ^ 63)%Z then v else (v - 2 ^ 64)%Z.
Proof.
  intros H.
  assert (R : (- 2 ^ 63 <= v < 2 ^ 64)%Z).
  { destruct T; cbv [in_range is_signed bits] in H; lia. }
  destruct (v <? 2 ^ 63)%Z eqn:E;
    [apply Z.ltb_lt in E | apply Z.ltb_ge in E].
  - apply to_int64_id. lia.
  - apply to_int64_high. lia.
Qed.

(** ** Writing appends *)

Lemma simple_string_put_app (self : simple_string.t) (stream : ostream) :
  simple_string.put self stream
  = (stream ++ marker.simple_string
              :: string_view.chars (simple_string.value_ self) ++ crlf)%list.
Proof. unfold simple_string.put. solve_append. Qed.

Lemma error_message_put_app (self : error_message.t) (stream : ostream) :
  error_message.put self stream
  = (stream ++ marker.error_message
              :: string_view.chars (error_message.value_ self) ++ crlf)%list.
Proof. unfold error_message.put. solve_append. Qed.

Lemma integer_put_app (T : integral) (self : integer.t T) (stream : ostream) :
  integer.put self stream
  = (stream ++ marker.integer
              :: signed_digits (to_int64 (integer.value_ self)) ++ crlf)%list.
Proof. unfold integer.put. solve_append. Qed.

Lemma bulk_string_put_app (self : bulk_string.t) (stream : ostream) :
  bulk_string.put self stream
  = (stream ++
     match string_view.data (bulk_string.value_ self) with
     | Some payload =>
         marker.bulk_string
           :: digits (N.of_nat (List.length payload)) ++ crlf ++ payload ++ crlf
     | None => marker.bulk_string :: signed_digits (-1) ++ crlf
     end)%list.
Proof.
  unfold bulk_string.put, string_view.length, string_view.chars.
  destruct (string_view.data (bulk_string.value_ self)) eqn:E; solve_append.
  unfold string_view.chars. rewrite E. reflexivity.
Qed.

Lemma binary_data_put_app (self : binary_data.t) (stream : ostream) :
  binary_data.put self stream
  = (stream ++
     match binary_data.data_ self with
     | Some storage =>
         marker.bulk_string
           :: digits (binary_data.length_ self) ++ crlf
           ++ firstn (Z.to_nat (to_int64 (Z.of_N (binary_data.length_ self))))
                storage
           ++ crlf
     | None => marker.bulk_string :: signed_digits (-1) ++ crlf
     end)%list.
Proof.
  unfold binary_data.put.
  destruct (binary_data.data_ self); solve_append.
Qed.

Lemma null_put_app (self : null.t) (stream : ostream) :
  null.put self stream
  = (stream ++ marker.bulk_string :: signed_digits (-1) ++ crlf)%list.
Proof. unfold null.put. unfold_inserters. apply bulk_string_put_app. Qed.

Lemma put_null_app (self : array.null_array) (stream : ostream) :
  array.put_null self stream
  = (stream ++ marker.array :: signed_digits (-1) ++ crlf)%list.
Proof. unfold array.put_null. solve_append. Qed.

(** The loop that counts a list that fits a [std::size_t]. *)
Lemma count_loop (A : Type) (values : list A) (count : N) :
  count + N.of_nat (List.length values) < 2 ^ 64 ->
  fold_left (fun count _ => size_incr count) values count
  = count + N.of_nat (List.length values).
Proof.
  revert count. induction values as [|i values IH]; intros count H.
  - cbn. lia.
  - cbn [fold_left List.length] in *.
    assert (E : size_incr count = count + 1).
    { unfold size_incr. apply N.mod_small. lia. }
    rewrite E, IH; lia.
Qed.

(** The loop that puts the items of a list as simple strings. *)
Lemma put_list_app (values : array.list_type) (stream : ostream) :
  fold_left
    (fun stream i => serialization_put stream {| simple_string.value_ := i |})
    values stream
  = (stream ++
     List.concat (map (fun i => marker.simple_string :: string_view.chars i ++ crlf)
               values))%list.
Proof.
  revert stream. induction values as [|i values IH]; intros stream.
  - cbn. rewrite app_nil_r. reflexivity.
  - cbn [fold_left map List.concat]. rewrite IH.
    unfold serialization_put, put, simple_string_serializable.
    rewrite simple_string_put_app. cbn [simple_string.value_].
    rewrite <- !app_assoc. reflexivity.
Qed.

Section put_each_app.

Variable put_item : forall T, object T -> ostream -> ostream.

Lemma put_each_app (Ts : list type) :
  Forall (fun T => forall value stream,
              put_item T value stream = (stream ++ put_item T value [])%list) Ts ->
  forall values stream,
    put_each object put_item Ts values stream
    = (stream ++ put_each object put_item Ts values [])%list.
Proof.
  induction 1 as [|T Ts HT _ IH]; intros values stream; cbn [put_each];
    unfold serialization_put, put.
  - rewrite app_nil_r. reflexivity.
  - rewrite IH, HT.
    rewrite (IH _ (put_item T (fst values) [])).
    rewrite app_assoc. reflexivity.
Qed.

End put_each_app.

Lemma array_put_app (tuple_type : Type) (tuple_size : N)
    (apply_put : tuple_type -> ostream -> ostream) :
  (forall values stream,
      apply_put values stream = (stream ++ apply_put values [])%list) ->
  forall self stream,
    array.put tuple_size apply_put self stream
    = (stream ++ array.put tuple_size apply_put self [])%list.
Proof.
  intros Happ [[values|values]] stream; unfold array.put; cbn [array.values_].
  - rewrite Happ. rewrite (Happ _ ([] << _ << _ << _ << _)).
    unfold_inserters. rewrite <- !app_assoc. reflexivity.
  - rewrite !put_list_app. unfold_inserters. rewrite <- !app_assoc. reflexivity.
Qed.

(** Every object appends to the stream the bytes of its own encoding. *)
Lemma put_object_app (T : type) :
  forall (value : object T) (stream : ostream),
    put_object T value stream = (stream ++ encoding T value)%list.
Proof.
  unfold encoding.
  induction T as [| | K | | | | Ts IH] using type_ind; intros value stream;
    cbn [put_object object] in *.
  - rewrite !simple_string_put_app. reflexivity.
  - rewrite !error_message_put_app. reflexivity.
  - rewrite !integer_put_app. reflexivity.
  - rewrite !bulk_string_put_app. reflexivity.
  - rewrite !binary_data_put_app. reflexivity.
  - rewrite !null_put_app. reflexivity.
  - revert value. destruct (is_null_pack Ts); intros value.
    + rewrite !put_null_app. reflexivity.
    + apply array_put_app. apply put_each_app. exact IH.
Qed.

Lemma put_each_encodings (Ts : list type) :
  forall (values : tuple object Ts) (stream : ostream),
    put_each object put_object Ts values stream
    = (stream ++ List.concat (encodings Ts values))%list.
Proof.
  induction Ts as [|T Ts IH]; intros values stream;
    cbn [put_each encodings List.concat]; unfold serialization_put, put.
  - rewrite app_nil_r. reflexivity.
  - rewrite IH, put_object_app, <- app_assoc. reflexivity.
Qed.

Lemma minus_one_digits : signed_digits (-1) = text "-1".
Proof. reflexivity. Qed.

Lemma streamsize_of_length (payload : list char_type) :
  (Z.of_nat (List.length payload) < 2 ^ 63)%Z ->
  Z.to_nat (to_int64 (Z.of_N (N.of_nat (List.length payload))))
  = List.length payload.
Proof.
  intros H. rewrite to_int64_id by lia. lia.
Qed.

(** * The wire format *)

(** ** Simple strings and error messages *)

(** C7. A simple string is written as ['+'], the characters of its text as
    they are, and the terminator; an error message as ['-'], the characters
    of its text as they are, and the terminator. *)
Theorem simple_string_error_message_verbatim
    (value : string_view.t) (stream : ostream) :
  simple_string.put {| simple_string.value_ := value |} stream
  = (stream ++ text "+" ++ string_view.chars value ++ crlf)%list
  /\ error_message.put {| error_message.value_ := value |} stream
     = (stream ++ text "-" ++ string_view.chars value ++ crlf)%list
  /\ forall chars : list char_type,
       string_view.chars (string_view.of_bytes chars) = chars.
Proof.
  split; [|split].
  - apply simple_string_put_app.
  - apply error_message_put_app.
  - reflexivity.
Qed.

(** ** Integers *)

(** C5. An integer of any integral type is written as [':'], the canonical
    decimal numeral of its value converted to a signed 64-bit integer, and
    the terminator; the converted value lies in the signed 64-bit range and
    differs from the value by a multiple of [2^64]. *)
Theorem integer_canonical_decimal
    (T : integral) (self : integer.t T) (stream : ostream) :
  let v := to_int64 (integer.value_ self) in
  integer.put self stream = (stream ++ text ":" ++ signed_digits v ++ crlf)%list
  /\ canonical_decimal (signed_digits v) v
  /\ (- 2 ^ 63 <= v < 2 ^ 63)%Z
  /\ exists k, (v = integer.value_ self + k * 2 ^ 64)%Z.
Proof.
  cbv zeta. split; [|split; [|split]].
  - apply integer_put_app.
  - apply signed_digits_canonical.
  - apply to_int64_range.
  - apply to_int64_congruent.
Qed.

(** ** Bulk strings and binary data *)

(** C2. A span of bytes that is present is written, as a bulk string and as
    binary data alike, as ['$'], the decimal numeral of the number of its
    bytes, the terminator, the bytes as they are, and the terminator.  The
    span of a [binary_data] is the first [length_] bytes of the storage at
    [data_]; no span is longer than [PTRDIFF_MAX]. *)
Theorem present_payload_length_prefixed
    (payload beyond : list char_type) (stream : ostream) :
  (Z.of_nat (List.length payload) < 2 ^ 63)%Z ->
  let len := N.of_nat (List.length payload) in
  let wire := (text "$" ++ digits len ++ crlf ++ payload ++ crlf)%list in
  bulk_string.put
    {| bulk_string.value_ := string_view.of_bytes payload |} stream
  = (stream ++ wire)%list
  /\ binary_data.put
       {| binary_data.data_ := Some (payload ++ beyond)%list;
          binary_data.length_ := len |} stream
     = (stream ++ wire)%list
  /\ canonical_unsigned (digits len) = true
  /\ number_of (digits len) = len.
Proof.
  intros H. cbv zeta. split; [|split; [|split]].
  - rewrite bulk_string_put_app. reflexivity.
  - rewrite binary_data_put_app. cbn [binary_data.data_ binary_data.length_].
    rewrite (streamsize_of_length payload H).
    rewrite firstn_app, Nat.sub_diag, firstn_all. cbn [firstn].
    rewrite app_nil_r. reflexivity.
  - apply digits_canonical.
  - apply digits_spec.
Qed.

Lemma present_payload_length_prefixed_witness :
  bulk_string.put
    {| bulk_string.value_ := string_view.of_bytes [x00; "a"; x00]%byte |} []
  = (text "$3" ++ crlf ++ [x00; "a"; x00]%byte ++ crlf)%list
  /\ binary_data.put
       {| binary_data.data_ := Some [x00; "a"; x00; "z"]%byte;
          binary_data.length_ := 3 |} []
     = (text "$3" ++ crlf ++ [x00; "a"; x00]%byte ++ crlf)%list.
Proof.
  assert (H : (Z.of_nat (List.length [x00; "a"; x00]%byte) < 2 ^ 63)%Z)
    by (vm_compute; reflexivity).
  pose proof
    (present_payload_length_prefixed [x00; "a"; x00]%byte ["z"%byte] [] H) as W.
  cbv zeta in W. destruct W as (B & D & _).
  split; [exact B | exact D].
Defined.

(** C3. Absence is written as the five bytes [$-1\r\n] and nothing more,
    whether by a bulk string with a null view, by binary data with a null
    pointer, or by a null; the zero-length form [$0\r\n\r\n] is written by
    exactly the bulk strings whose view is present and empty and the binary
    data whose pointer is not null and whose length is zero. *)
Theorem absent_payload_null_form (stream : ostream) :
  bulk_string.put {| bulk_string.value_ := string_view.empty |} stream
  = (stream ++ text "$-1" ++ crlf)%list
  /\ (forall length : N,
        binary_data.put
          {| binary_data.data_ := None; binary_data.length_ := length |} stream
        = (stream ++ text "$-1" ++ crlf)%list)
  /\ (forall self : null.t,
        null.put self stream = (stream ++ text "$-1" ++ crlf)%list)
  /\ List.length (text "$-1" ++ crlf)%list = 5%nat
  /\ (forall self : bulk_string.t,
        bulk_string.put self stream = (stream ++ text "$0" ++ crlf ++ crlf)%list
        <-> string_view.data (bulk_string.value_ self) = Some [])
  /\ (forall self : binary_data.t,
        binary_data.put self stream = (stream ++ text "$0" ++ crlf ++ crlf)%list
        <-> (exists storage, binary_data.data_ self = Some storage)
            /\ binary_data.length_ self = 0).
Proof.
  split; [|split; [|split; [|split; [|split]]]].
  - apply bulk_string_put_app.
  - intros length. apply binary_data_put_app.
  - intros self. apply null_put_app.
  - reflexivity.
  - intros [[[payload|]]]; rewrite bulk_string_put_app;
      cbn [bulk_string.value_ string_view.data]; split; intros E.
    + apply app_inv_head in E. injection E as E.
      destruct payload as [|c payload]; [reflexivity|].
      exfalso.
      destruct (digits (N.of_nat (List.length (c :: payload))))
        as [|d rest] eqn:D; [discriminate E|].
      injection E as -> E.
      apply digits_zero_head in D. destruct D as [D _]. discriminate D.
    + injection E as ->. reflexivity.
    + apply app_inv_head in E. discriminate E.
    + discriminate E.
  - intros [[storage|] length]; rewrite binary_data_put_app;
      cbn [binary_data.data_ binary_data.length_]; split.
    + intros E. apply app_inv_head in E. injection E as E.
      destruct (digits length) as [|d rest] eqn:D; [discriminate E|].
      injection E as -> E.
      apply digits_zero_head in D. destruct D as [D _].
      split; [exists storage; reflexivity | exact D].
    + intros [_ ->]. reflexivity.
    + intros E. apply app_inv_head in E. discriminate E.
    + intros [[storage E] _]. discriminate E.
Qed.

Lemma absent_payload_null_form_witness :
  bulk_string.put {| bulk_string.value_ := string_view.of_bytes [] |} []
  = (text "$0" ++ crlf ++ crlf)%list
  /\ binary_data.put
       {| binary_data.data_ := Some (text "unread");
          binary_data.length_ := 0 |} []
     = (text "$0" ++ crlf ++ crlf)%list.
Proof.
  destruct (absent_payload_null_form []) as (_ & _ & _ & _ & B & D).
  split.
  - apply (proj2 (B {| bulk_string.value_ := string_view.of_bytes [] |})).
    reflexivity.
  - apply (proj2 (D {| binary_data.data_ := Some (text "unread");
                       binary_data.length_ := 0 |})).
    split; [exists (text "unread"); reflexivity | reflexivity].
Defined.

(** C9. Binary data with a null pointer is written as [$-1\r\n] whatever
    its length, and binary data with a pointer that is not null is never
    written so, whatever its length. *)
Theorem binary_data_presence_by_pointer (length : N) (stream : ostream) :
  binary_data.put
    {| binary_data.data_ := None; binary_data.length_ := length |} stream
  = (stream ++ text "$-1" ++ crlf)%list
  /\ forall storage : list char_type,
       binary_data.put
         {| binary_data.data_ := Some storage;
            binary_data.length_ := length |} stream
       <> (stream ++ text "$-1" ++ crlf)%list.
Proof.
  split.
  - apply binary_data_put_app.
  - intros storage E. rewrite binary_data_put_app in E.
    cbn [binary_data.data_ binary_data.length_] in E.
    apply app_inv_head in E. injection E as E.
    destruct (digits_head length) as (c & rest & D & Hc).
    rewrite D in E. injection E as -> _. discriminate Hc.
Qed.

(** ** Arrays *)

Lemma make_array_put (Ts : list type) :
  is_null_pack Ts = false ->
  forall (values : tuple object Ts) (stream : ostream),
    put_object (Tarray Ts) (make_array Ts values) stream
    = put_each object put_object Ts values
        (stream << marker.array << N.of_nat (List.length Ts)
                << marker.cr << marker.lf).
Proof.
  intros H values stream.
  destruct Ts as [|T Ts]; [reflexivity|].
  destruct T, Ts; try discriminate H; reflexivity.
Qed.

(** C1, as amended. An array built from a fixed pack of items, other than
    the pack of a single null, is written as ['*'], the decimal numeral of
    the number of items, the terminator, and then what every item writes of
    its own, in the order of the arguments and with nothing in between. *)
Theorem fixed_array_items_in_order
    (Ts : list type) (values : tuple object Ts) (stream : ostream) :
  is_null_pack Ts = false ->
  put_object (Tarray Ts) (make_array Ts values) stream
  = (stream ++ fixed_array_form Ts values)%list
  /\ canonical_unsigned (digits (N.of_nat (List.length Ts))) = true
  /\ number_of (digits (N.of_nat (List.length Ts))) = N.of_nat (List.length Ts).
Proof.
  intros H. split; [|split].
  - rewrite (make_array_put Ts H), put_each_encodings.
    unfold fixed_array_form. solve_append.
  - apply digits_canonical.
  - apply digits_spec.
Qed.

Lemma fixed_array_items_in_order_witness :
  let foo := {| bulk_string.value_ := string_view.of_bytes (text "foo") |} in
  let bar := {| bulk_string.value_ := string_view.of_bytes (text "bar") |} in
  put_object (Tarray [Tbulk_string; Tbulk_string])
    (make_array [Tbulk_string; Tbulk_string] (foo, (bar, tt))) []
  = (text "*2" ++ crlf ++ text "$3" ++ crlf ++ text "foo" ++ crlf
     ++ text "$3" ++ crlf ++ text "bar" ++ crlf)%list.
Proof.
  cbv zeta.
  exact (proj1 (fixed_array_items_in_order [Tbulk_string; Tbulk_string]
                  ({| bulk_string.value_ := string_view.of_bytes (text "foo") |},
                   ({| bulk_string.value_ := string_view.of_bytes (text "bar") |},
                    tt))
                  [] eq_refl)).
Defined.

(** C1, as stated, fails for the pack of a single null: the array is written
    as [*-1\r\n], and not as [*1\r\n] followed by what the null writes. *)
Lemma fixed_array_single_null_counterexample :
  put_object (Tarray [Tnull]) (make_array [Tnull] (null.make, tt)) []
  = (text "*-1" ++ crlf)%list
  /\ fixed_array_form [Tnull] (null.make, tt)
     = (text "*1" ++ crlf ++ text "$-1" ++ crlf)%list
  /\ put_object (Tarray [Tnull]) (make_array [Tnull] (null.make, tt)) []
     <> ([] ++ fixed_array_form [Tnull] (null.make, tt))%list.
Proof.
  split; [reflexivity | split; [reflexivity | discriminate]].
Qed.

(** C10. The pack of a single null selects the specialisation: the array
    built from one null is written as [*-1\r\n] and not as the array of one
    item [*1\r\n$-1\r\n], as is every object of the class [array<null>], and
    that class cannot be built from a list. *)
Theorem single_null_selects_null_array (item : null.t) (stream : ostream) :
  object (Tarray [Tnull]) = array.null_array
  /\ put_object (Tarray [Tnull]) (make_array [Tnull] (item, tt)) stream
     = (stream ++ text "*-1" ++ crlf)%list
  /\ put_object (Tarray [Tnull]) (make_array [Tnull] (item, tt)) stream
     <> (stream ++ text "*1" ++ crlf ++ encoding Tnull item)%list
  /\ encoding Tnull item = (text "$-1" ++ crlf)%list
  /\ (forall self : object (Tarray [Tnull]),
        put_object (Tarray [Tnull]) self stream
        = (stream ++ text "*-1" ++ crlf)%list)
  /\ (forall list : array.list_type, make_list_array [Tnull] list = None).
Proof.
  split; [reflexivity|].
  split; [apply put_null_app|].
  split.
  { intros E.
    change (put_object (Tarray [Tnull]) (make_array [Tnull] (item, tt)) stream)
      with (array.put_null (array.of_null item) stream) in E.
    rewrite put_null_app in E. apply app_inv_head in E. discriminate E. }
  split; [reflexivity|].
  split; [intros self; apply put_null_app | reflexivity].
Qed.

(** C6. The null array is written as the five bytes [*-1\r\n] and nothing
    more; an array that is present and empty, built from an empty list or
    from no item, is written as [*0\r\n], which is something else. *)
Theorem null_array_form (self : array.null_array) (stream : ostream) :
  array.put_null self stream = (stream ++ text "*-1" ++ crlf)%list
  /\ List.length (text "*-1" ++ crlf)%list = 5%nat
  /\ (forall (tuple_type : Type) (tuple_size : N)
        (apply_put : tuple_type -> ostream -> ostream),
        array.put tuple_size apply_put (array.of_list []) stream
        = (stream ++ text "*0" ++ crlf)%list
        /\ array.put_null self stream
           <> array.put tuple_size apply_put (array.of_list []) stream)
  /\ put_object (Tarray []) (make_array [] tt) stream
     = (stream ++ text "*0" ++ crlf)%list
  /\ array.put_null self stream
     <> put_object (Tarray []) (make_array [] tt) stream.
Proof.
  assert (L : forall (tuple_type : Type) (tuple_size : N)
                (apply_put : tuple_type -> ostream -> ostream),
             array.put tuple_size apply_put (array.of_list []) stream
             = (stream ++ text "*0" ++ crlf)%list).
  { intros. unfold array.put, array.of_list. cbn [array.values_ fold_left].
    solve_append. }
  assert (F : put_object (Tarray []) (make_array [] tt) stream
              = (stream ++ text "*0" ++ crlf)%list).
  { rewrite make_array_put by reflexivity. cbn [put_each]. solve_append. }
  split; [apply put_null_app|].
  split; [reflexivity|].
  split; [|split; [exact F|]].
  - intros tuple_type tuple_size apply_put. split; [apply L|].
    rewrite L, put_null_app. intros E. apply app_inv_head in E. discriminate E.
  - rewrite F, put_null_app. intros E. apply app_inv_head in E. discriminate E.
Qed.

Lemma encoding_simple_string (i : string_view.t) :
  encoding Tsimple_string {| simple_string.value_ := i |}
  = marker.simple_string :: (string_view.chars i ++ crlf)%list.
Proof. exact (simple_string_put_app {| simple_string.value_ := i |} []). Qed.

(** C4. An array built from a list of [k] texts is written as ['*'], the
    decimal numeral of [k] as counted by a first traversal of the list, the
    terminator, and then, by a second traversal, every text as a simple
    string, in the order of the list; for the empty list that is [*0\r\n]
    and the second traversal writes nothing. *)
Theorem list_array_counted_then_written
    (Ts : list type) (items : array.list_type)
    (self : object (Tarray Ts)) (stream : ostream) :
  make_list_array Ts items = Some self ->
  (N.of_nat (List.length items) < 2 ^ 64) ->
  let k := N.of_nat (List.length items) in
  fold_left (fun count _ => size_incr count) items 0 = k
  /\ put_object (Tarray Ts) self stream
     = fold_left
         (fun stream i =>
            simple_string.put {| simple_string.value_ := i |} stream)
         items (stream ++ text "*" ++ digits k ++ crlf)%list
  /\ put_object (Tarray Ts) self stream
     = (stream ++ text "*" ++ digits k ++ crlf
        ++ List.concat
             (map (fun i =>
                     encoding Tsimple_string {| simple_string.value_ := i |})
                items))%list
  /\ canonical_unsigned (digits k) = true
  /\ number_of (digits k) = k
  /\ (items = [] ->
      put_object (Tarray Ts) self stream = (stream ++ text "*0" ++ crlf)%list).
Proof.
  intros Hself Hk. cbv zeta.
  assert (C : fold_left (fun count _ => size_incr count) items 0
              = N.of_nat (List.length items)).
  { rewrite count_loop; lia. }
  assert (P : put_object (Tarray Ts) self stream
              = fold_left
                  (fun stream i =>
                     simple_string.put {| simple_string.value_ := i |} stream)
                  items
                  (stream ++ text "*" ++ digits (N.of_nat (List.length items))
                   ++ crlf)%list).
  { revert self Hself. unfold make_list_array. cbn [put_object object].
    destruct (is_null_pack Ts); intros self Hself; [discriminate Hself|].
    injection Hself as <-.
    unfold array.put, array.of_list. cbn [array.values_].
    rewrite C. unfold_inserters. rewrite <- !app_assoc. reflexivity. }
  split; [exact C|]. split; [exact P|].
  split; [|split; [apply digits_canonical | split; [apply digits_spec|]]].
  - rewrite P.
    change (fun (stream0 : ostream) (i : string_view.t) =>
              simple_string.put {| simple_string.value_ := i |} stream0)
      with (fun (stream0 : ostream) (i : string_view.t) =>
              serialization_put stream0 {| simple_string.value_ := i |}).
    rewrite put_list_app, <- !app_assoc.
    rewrite (map_ext _ _ encoding_simple_string). reflexivity.
  - intros ->. rewrite P. reflexivity.
Qed.

Lemma list_array_counted_then_written_witness :
  exists self : object (Tarray []),
    make_list_array []
      [string_view.of_bytes (text "GET"); string_view.of_bytes (text "key")]
    = Some self
    /\ put_object (Tarray []) self []
       = (text "*2" ++ crlf ++ text "+GET" ++ crlf ++ text "+key" ++ crlf)%list.
Proof.
  eexists. split; [reflexivity|].
  refine (proj1 (proj2 (proj2
    (list_array_counted_then_written []
       [string_view.of_bytes (text "GET"); string_view.of_bytes (text "key")]
       _ [] eq_refl _)))).
  vm_compute. reflexivity.
Defined.

(** ** Reading a simple string back *)

Lemma read_line_step (c c' : char_type) (after : list char_type) :
  read_line (c :: c' :: after)
  = if Byte.eqb c marker.cr && Byte.eqb c' marker.lf
    then Some ([], after)
    else option_map (fun r => (c :: fst r, snd r)) (read_line (c' :: after)).
Proof. reflexivity. Qed.

Lemma read_line_terminated (line : list char_type) :
  has_terminator line = false ->
  read_line (line ++ crlf) = Some (line, []).
Proof.
  induction line as [|c line IH]; intros H.
  - reflexivity.
  - destruct line as [|c' line].
    + cbn [app read_line crlf].
      replace (Byte.eqb c marker.cr && Byte.eqb marker.cr marker.lf)
        with false by (rewrite andb_comm; reflexivity).
      reflexivity.
    + cbn [has_terminator] in H. apply orb_false_iff in H.
      destruct H as [Hc Hrest].
      change ((c :: c' :: line) ++ crlf)%list
        with (c :: c' :: (line ++ crlf))%list.
      rewrite read_line_step, Hc.
      change (c' :: (line ++ crlf))%list with ((c' :: line) ++ crlf)%list.
      rewrite (IH Hrest). reflexivity.
Qed.

(** C8. A text without the terminator sequence is read back from its
    encoding as a simple string: by reading up to the terminator after the
    marker, and by stripping the marker and the trailing terminator. *)
Theorem simple_string_round_trip (chars : list char_type) :
  has_terminator chars = false ->
  let wire :=
    encoding Tsimple_string
      {| simple_string.value_ := string_view.of_bytes chars |} in
  decode_simple_string wire = Some chars
  /\ strip_frame wire = Some chars.
Proof.
  intros H. cbv zeta. rewrite encoding_simple_string.
  cbn [string_view.chars string_view.of_bytes string_view.data].
  split.
  - cbn [decode_simple_string].
    change (Byte.eqb marker.simple_string marker.simple_string) with true.
    cbv iota. rewrite (read_line_terminated chars H). reflexivity.
  - cbn [strip_frame]. unfold crlf. rewrite rev_app_distr. cbn [rev app].
    change (Byte.eqb marker.simple_string marker.simple_string) with true.
    change (Byte.eqb marker.cr marker.cr) with true.
    change (Byte.eqb marker.lf marker.lf) with true.
    cbn [andb]. rewrite rev_involutive. reflexivity.
Qed.

Lemma simple_string_round_trip_witness :
  decode_simple_string
    (encoding Tsimple_string
       {| simple_string.value_ := string_view.of_bytes (text "OK") |})
  = Some (text "OK").
Proof.
  exact (proj1 (simple_string_round_trip (text "OK") eq_refl)).
Defined.

(** ** The scenarios of the specification *)

Example simple_string_ok :
  encoding Tsimple_string
    {| simple_string.value_ := string_view.of_bytes (text "OK") |}
  = (text "+OK" ++ crlf)%list.
Proof. reflexivity. Qed.

Example integer_1000 :
  encoding (Tinteger int_) (integer.make 1000%Z) = (text ":1000" ++ crlf)%list.
Proof. reflexivity. Qed.

Example integer_unsigned_max :
  encoding (Tinteger unsigned_long_long) (integer.make (2 ^ 64 - 1)%Z)
  = (text ":-1" ++ crlf)%list.
Proof. reflexivity. Qed.

Example bulk_string_foobar :
  encoding Tbulk_string
    {| bulk_string.value_ := string_view.of_bytes (text "foobar") |}
  = (text "$6" ++ crlf ++ text "foobar" ++ crlf)%list.
Proof. reflexivity. Qed.

Example bulk_string_empty_present :
  encoding Tbulk_string {| bulk_string.value_ := string_view.of_bytes [] |}
  = (text "$0" ++ crlf ++ crlf)%list.
Proof. reflexivity. Qed.

Example bulk_string_absent :
  encoding Tbulk_string bulk_string.default = (text "$-1" ++ crlf)%list.
Proof. reflexivity. Qed.

Example nested_array :
  encoding (Tarray [Tarray [Tnull]; Tarray []; Tinteger int_])
    (make_array [Tarray [Tnull]; Tarray []; Tinteger int_]
       (make_array [Tnull] (null.make, tt),
        (make_array [] tt, (integer.make (-7)%Z, tt))))
  = (text "*3" ++ crlf ++ text "*-1" ++ crlf ++ text "*0" ++ crlf
     ++ text ":-7" ++ crlf)%list.
Proof. reflexivity. Qed.

(** A text that contains the terminator is not read back. *)
Example simple_string_with_terminator :
  decode_simple_string
    (encoding Tsimple_string
       {| simple_string.value_ :=
            string_view.of_bytes (text "a" ++ crlf ++ text "b") |})
  = None.
Proof. reflexivity. Qed.

(** * Further properties of the serializer *)

(** ** Writing in sequence *)

(** X1. Putting an object leaves what the stream holds in place and appends
    the bytes of the object's own encoding; two objects put one after the
    other through the generic entry point leave the two encodings back to
    back. *)
Theorem put_appends_back_to_back
    (T1 T2 : type) (value1 : object T1) (value2 : object T2)
    (stream : ostream) :
  serialization_put stream value1 = (stream ++ encoding T1 value1)%list
  /\ serialization_put (serialization_put stream value1) value2
     = (stream ++ encoding T1 value1 ++ encoding T2 value2)%list
  /\ firstn (List.length stream) (serialization_put stream value1) = stream.
Proof.
  unfold serialization_put, put, object_serializable.
  split; [|split].
  - apply put_object_app.
  - rewrite !put_object_app, <- app_assoc. reflexivity.
  - rewrite put_object_app, firstn_app, Nat.sub_diag, firstn_all.
    cbn [firstn]. apply app_nil_r.
Qed.

(** ** Framing *)

Lemma terminated_items (Ts : list type) :
  Forall (fun T => forall value : object T,
              exists body, encoding T value = (marker_of T :: body ++ crlf)%list)
    Ts ->
  forall (values : tuple object Ts) (head : list char_type),
    exists body,
      (head ++ crlf ++ List.concat (encodings Ts values))%list
      = (head ++ body ++ crlf)%list.
Proof.
  induction 1 as [|T Ts HT _ IH]; intros values head;
    cbn [encodings List.concat].
  - exists []. rewrite app_nil_r. reflexivity.
  - destruct (HT (fst values)) as [b Hb]. rewrite Hb.
    destruct (IH (snd values) (head ++ crlf ++ [marker_of T] ++ b)%list)
      as [body Hbody].
    exists (crlf ++ [marker_of T] ++ b ++ body)%list.
    flatten_app_in Hbody. flatten_app. exact Hbody.
Qed.

Lemma terminated_list (values : array.list_type) :
  forall head : list char_type,
    exists body,
      (head ++ crlf
       ++ List.concat
            (map (fun i => marker.simple_string :: string_view.chars i ++ crlf)
               values))%list
      = (head ++ body ++ crlf)%list.
Proof.
  induction values as [|i values IH]; intros head; cbn [map List.concat].
  - exists []. rewrite app_nil_r. reflexivity.
  - destruct (IH (head ++ crlf ++ marker.simple_string
                  :: string_view.chars i)%list) as [body Hbody].
    exists (crlf ++ marker.simple_string :: string_view.chars i ++ body)%list.
    flatten_app_in Hbody. flatten_app. exact Hbody.
Qed.

(** X2. What an object of any class writes begins with the marker of its
    class and ends with the terminator, arrays of every depth included. *)
Theorem encoding_framed (T : type) (value : object T) :
  exists body, encoding T value = (marker_of T :: body ++ crlf)%list.
Proof.
  revert value. unfold encoding.
  induction T as [| | K | | | | Ts IH] using type_ind; intros value;
    cbn [put_object object marker_of] in *.
  - rewrite simple_string_put_app. eexists. reflexivity.
  - rewrite error_message_put_app. eexists. reflexivity.
  - rewrite integer_put_app. eexists. reflexivity.
  - rewrite bulk_string_put_app.
    destruct (string_view.data (bulk_string.value_ value)) as [payload|].
    + exists (digits (N.of_nat (List.length payload)) ++ crlf ++ payload)%list.
      flatten_app. reflexivity.
    + eexists. reflexivity.
  - rewrite binary_data_put_app.
    destruct (binary_data.data_ value) as [storage|].
    + eexists (digits _ ++ crlf ++ firstn _ storage)%list.
      flatten_app. reflexivity.
    + eexists. reflexivity.
  - rewrite null_put_app. eexists. reflexivity.
  - revert value. destruct (is_null_pack Ts); intros value.
    + rewrite put_null_app. eexists. reflexivity.
    + destruct value as [[values|values]]; unfold array.put;
        cbn [array.values_].
      * rewrite put_each_encodings. unfold_inserters.
        destruct (terminated_items Ts IH values
                    (marker.array :: digits (N.of_nat (List.length Ts))))
          as [body Hbody].
        exists (digits (N.of_nat (List.length Ts)) ++ body)%list.
        flatten_app_in Hbody. flatten_app. exact Hbody.
      * rewrite put_list_app. unfold_inserters.
        set (count := fold_left (fun count _ => size_incr count) values 0).
        destruct (terminated_list values (marker.array :: digits count))
          as [body Hbody].
        exists (digits count ++ body)%list.
        flatten_app_in Hbody. flatten_app. exact Hbody.
Qed.

(** ** No escaping in simple strings and error messages *)

(** X3. The text of a simple string or of an error message is not escaped: a
    text that holds a terminator followed by a marker is written as the same
    bytes as two units put one after the other. *)
Theorem text_with_terminator_splits
    (before after : list char_type) (stream : ostream) :
  simple_string.put
    {| simple_string.value_ :=
         string_view.of_bytes (before ++ crlf ++ text "+" ++ after) |} stream
  = simple_string.put
      {| simple_string.value_ := string_view.of_bytes after |}
      (simple_string.put
         {| simple_string.value_ := string_view.of_bytes before |} stream)
  /\ error_message.put
       {| error_message.value_ :=
            string_view.of_bytes (before ++ crlf ++ text "-" ++ after) |} stream
     = error_message.put
         {| error_message.value_ := string_view.of_bytes after |}
         (error_message.put
            {| error_message.value_ := string_view.of_bytes before |} stream).
Proof.
  split.
  - rewrite !simple_string_put_app.
    cbn [simple_string.value_ string_view.chars string_view.of_bytes
         string_view.data].
    flatten_app. reflexivity.
  - rewrite !error_message_put_app.
    cbn [error_message.value_ string_view.chars string_view.of_bytes
         string_view.data].
    flatten_app. reflexivity.
Qed.

(** ** Reading the length prefix back *)

Lemma digits_all (n : N) : forallb is_digit (digits n) = true.
Proof. apply digits_spec. Qed.

(** A run of digits ends where the carriage return stands. *)
Lemma digits_run_unique (run1 : list char_type) :
  forall run2 rest1 rest2,
    forallb is_digit run1 = true -> forallb is_digit run2 = true ->
    (run1 ++ marker.cr :: rest1)%list = (run2 ++ marker.cr :: rest2)%list ->
    run1 = run2 /\ rest1 = rest2.
Proof.
  induction run1 as [|c run1 IH]; intros [|c' run2] rest1 rest2 H1 H2 E;
    cbn [app forallb] in *.
  - injection E as E. split; [reflexivity | exact E].
  - injection E as <- _. apply andb_true_iff in H2.
    destruct H2 as [H2 _]. discriminate H2.
  - injection E as -> _. apply andb_true_iff in H1.
    destruct H1 as [H1 _]. discriminate H1.
  - injection E as <- E.
    apply andb_true_iff in H1. destruct H1 as [_ H1].
    apply andb_true_iff in H2. destruct H2 as [_ H2].
    destruct (IH run2 rest1 rest2 H1 H2 E) as [-> ->].
    split; reflexivity.
Qed.

Lemma app_same_length (A : Type) (l1 : list A) :
  forall l2 r1 r2,
    List.length l1 = List.length l2 ->
    (l1 ++ r1)%list = (l2 ++ r2)%list -> l1 = l2 /\ r1 = r2.
Proof.
  induction l1 as [|a l1 IH]; intros [|b l2] r1 r2 L E;
    try discriminate L; cbn [app] in E.
  - split; [reflexivity | exact E].
  - injection E as <- E. injection L as L.
    destruct (IH l2 r1 r2 L E) as [-> ->]. split; reflexivity.
Qed.

Lemma bulk_string_encoding_unique
    (a b : bulk_string.t) (rest1 rest2 : list char_type) :
  (encoding Tbulk_string a ++ rest1)%list
  = (encoding Tbulk_string b ++ rest2)%list ->
  a = b /\ rest1 = rest2.
Proof.
  unfold encoding. cbn [put_object]. rewrite !bulk_string_put_app.
  destruct a as [[[p|]]], b as [[[q|]]];
    cbn [bulk_string.value_ string_view.data app]; intros E;
    injection E as E.
  - flatten_app_in E.
    destruct (digits_run_unique _ _ _ _ (digits_all _) (digits_all _) E)
      as [D R].
    apply digits_inj, Nnat.Nat2N.inj in D.
    injection R as R.
    destruct (app_same_length _ p q _ _ D R) as [-> R'].
    injection R' as R'. split; [reflexivity | exact R'].
  - exfalso. destruct (digits_head (N.of_nat (List.length p)))
      as (c & t & D & Hc).
    rewrite D in E. injection E as -> _. discriminate Hc.
  - exfalso. destruct (digits_head (N.of_nat (List.length q)))
      as (c & t & D & Hc).
    rewrite D in E. injection E as <- _. discriminate Hc.
  - split; [reflexivity | exact E].
Qed.

(** X4. A bulk string can be told from what follows it whatever bytes it
    holds: when two bulk strings put on the same stream, each followed by
    any bytes, leave the same bytes, the two bulk strings have the same
    view, null or with the same characters, and the bytes that follow are
    the same. *)
Theorem bulk_string_self_delimiting
    (a b : bulk_string.t) (stream rest1 rest2 : list char_type) :
  (bulk_string.put a stream ++ rest1)%list
  = (bulk_string.put b stream ++ rest2)%list ->
  a = b /\ rest1 = rest2.
Proof.
  intros E.
  change (bulk_string.put a stream)
    with (put_object Tbulk_string a stream) in E.
  change (bulk_string.put b stream)
    with (put_object Tbulk_string b stream) in E.
  rewrite (put_object_app Tbulk_string a stream) in E.
  rewrite (put_object_app Tbulk_string b stream) in E.
  rewrite <- !app_assoc in E. apply app_inv_head in E.
  exact (bulk_string_encoding_unique a b rest1 rest2 E).
Qed.

Lemma bulk_string_self_delimiting_witness :
  {| bulk_string.value_ := string_view.of_bytes (crlf ++ text "$1") |}
  = {| bulk_string.value_ := string_view.of_bytes (crlf ++ text "$1") |}
  /\ text "+OK" = text "+OK".
Proof.
  exact (bulk_string_self_delimiting
           {| bulk_string.value_ := string_view.of_bytes (crlf ++ text "$1") |}
           {| bulk_string.value_ := string_view.of_bytes (crlf ++ text "$1") |}
           (text "*1") (text "+OK") (text "+OK") eq_refl).
Defined.

(** ** Integers of every type *)

(** X5. A value of a signed type, or of an unsigned type of fewer than 64
    bits, is written as its own decimal numeral: the conversion to 64 bits
    does not change it. *)
Theorem integer_written_as_is
    (T : integral) (v : Z) (stream : ostream) :
  in_range T v ->
  is_signed T = true \/ (bits T < 64)%Z ->
  integer.put (@integer.make T v) stream
  = (stream ++ text ":" ++ signed_digits v ++ crlf)%list
  /\ canonical_decimal (signed_digits v) v.
Proof.
  intros R H. split; [|apply signed_digits_canonical].
  rewrite integer_put_app. cbn [integer.value_].
  rewrite to_int64_id; [reflexivity|].
  destruct T; cbv [in_range is_signed bits] in R, H;
    destruct H as [H|H]; try discriminate H; lia.
Qed.

Lemma integer_written_as_is_witness :
  integer.put (@integer.make signed_char (-128)%Z) []
  = (text ":-128" ++ crlf)%list.
Proof.
  refine (proj1 (integer_written_as_is signed_char (-128)%Z [] _ _)).
  - cbv [in_range is_signed bits]. lia.
  - left. reflexivity.
Defined.

(** X6. A value of an unsigned 64-bit type that is [2^63] or more is written
    as a negative number: a minus sign and the numeral of [2^64] less the
    value. *)
Theorem integer_unsigned_upper_half_negative
    (T : integral) (v : Z) (stream : ostream) :
  is_signed T = false -> bits T = 64%Z ->
  in_range T v -> (2 ^ 63 <= v)%Z ->
  integer.put (@integer.make T v) stream
  = (stream ++ text ":-" ++ digits (Z.to_N (2 ^ 64 - v)) ++ crlf)%list.
Proof.
  intros S B R H. rewrite integer_put_app. cbn [integer.value_].
  assert (R' : (2 ^ 63 <= v < 2 ^ 64)%Z).
  { unfold in_range in R. rewrite S, B in R. lia. }
  rewrite (to_int64_high v R'). unfold signed_digits.
  assert (N : (v - 2 ^ 64 <? 0)%Z = true) by (apply Z.ltb_lt; lia).
  rewrite N. replace (- (v - 2 ^ 64))%Z with (2 ^ 64 - v)%Z by lia.
  reflexivity.
Qed.

Lemma integer_unsigned_upper_half_negative_witness :
  integer.put (@integer.make unsigned_long (2 ^ 63)%Z) []
  = (text ":-9223372036854775808" ++ crlf)%list.
Proof.
  refine (integer_unsigned_upper_half_negative unsigned_long (2 ^ 63)%Z []
            eq_refl eq_refl _ _).
  - cbv [in_range is_signed bits]. lia.
  - lia.
Defined.

Lemma signed_digits_run_unique (x y : Z) (rest1 rest2 : list char_type) :
  (signed_digits x ++ marker.cr :: rest1)%list
  = (signed_digits y ++ marker.cr :: rest2)%list ->
  x = y /\ rest1 = rest2.
Proof.
  unfold signed_digits.
  destruct (x <? 0)%Z eqn:X, (y <? 0)%Z eqn:Y; cbn [app]; intros E;
    try apply Z.ltb_lt in X; try apply Z.ltb_lt in Y;
    try apply Z.ltb_ge in X; try apply Z.ltb_ge in Y.
  - injection E as E.
    destruct (digits_run_unique _ _ _ _ (digits_all _) (digits_all _) E)
      as [D R].
    apply digits_inj in D. split; [lia | exact R].
  - exfalso. destruct (digits_head (Z.to_N y)) as (c & t & D & Hc).
    rewrite D in E. injection E as <- _. discriminate Hc.
  - exfalso. destruct (digits_head (Z.to_N x)) as (c & t & D & Hc).
    rewrite D in E. injection E as -> _. discriminate Hc.
  - destruct (digits_run_unique _ _ _ _ (digits_all _) (digits_all _) E)
      as [D R].
    apply digits_inj in D. split; [lia | exact R].
Qed.

Lemma to_int64_eq_iff (x y : Z) :
  to_int64 x = to_int64 y <-> ((x - y) mod 2 ^ 64 = 0)%Z.
Proof.
  unfold to_int64, two64.
  destruct (x mod 2 ^ 64 <? 2 ^ 63)%Z eqn:X, (y mod 2 ^ 64 <? 2 ^ 63)%Z eqn:Y;
    try apply Z.ltb_lt in X; try apply Z.ltb_lt in Y;
    try apply Z.ltb_ge in X; try apply Z.ltb_ge in Y;
    split; intros H; Z.div_mod_to_equations; lia.
Qed.

(** X7. Two integers, of whatever types, are written as the same bytes
    exactly when their values differ by a multiple of [2^64]; and an integer
    can be told from what follows it. *)
Theorem integer_same_bytes_iff_congruent
    (T1 T2 : integral) (a : integer.t T1) (b : integer.t T2)
    (stream : ostream) :
  (integer.put a stream = integer.put b stream
   <-> ((integer.value_ a - integer.value_ b) mod 2 ^ 64 = 0)%Z)
  /\ forall rest1 rest2 : list char_type,
       (encoding (Tinteger T1) a ++ rest1)%list
       = (encoding (Tinteger T2) b ++ rest2)%list ->
       to_int64 (integer.value_ a) = to_int64 (integer.value_ b)
       /\ rest1 = rest2.
Proof.
  assert (S : forall rest1 rest2 : list char_type,
             (encoding (Tinteger T1) a ++ rest1)%list
             = (encoding (Tinteger T2) b ++ rest2)%list ->
             to_int64 (integer.value_ a) = to_int64 (integer.value_ b)
             /\ rest1 = rest2).
  { intros rest1 rest2. unfold encoding. cbn [put_object].
    rewrite !integer_put_app. cbn [app]. intros E. injection E as E.
    flatten_app_in E.
    destruct (signed_digits_run_unique _ _ _ _ E) as [V R].
    injection R as R. split; assumption. }
  split; [|exact S].
  rewrite <- to_int64_eq_iff. split.
  - intros E. rewrite (integer_put_app T1), (integer_put_app T2) in E.
    apply app_inv_head in E.
    apply (S [] []). unfold encoding. cbn [put_object].
    rewrite !integer_put_app. cbn [app]. rewrite !app_nil_r. exact E.
  - intros V. rewrite (integer_put_app T1), (integer_put_app T2), V.
    reflexivity.
Qed.

Lemma integer_same_bytes_iff_congruent_witness :
  integer.put (@integer.make unsigned_long_long (2 ^ 64 - 1)%Z) []
  = integer.put (@integer.make int_ (-1)%Z) [].
Proof.
  apply (proj2 (proj1 (integer_same_bytes_iff_congruent
                         unsigned_long_long int_
                         (integer.make (2 ^ 64 - 1)%Z) (integer.make (-1)%Z)
                         []))).
  reflexivity.
Defined.

(** ** Arrays of one class *)

Lemma not_null_pack_repeat (T : type) (k : nat) :
  T <> Tnull -> is_null_pack (repeat T k) = false.
Proof.
  intros H. destruct k as [|k]; [reflexivity|].
  cbn [repeat]. destruct T, (repeat _ k); try reflexivity. congruence.
Qed.

Lemma encodings_uniform (T : type) (values : list (object T)) :
  encodings (repeat T (List.length values)) (uniform T values)
  = map (encoding T) values.
Proof.
  induction values as [|value values IH]; cbn [uniform encodings map].
  - reflexivity.
  - cbn [List.length repeat encodings uniform fst snd]. rewrite IH.
    reflexivity.
Qed.

Lemma uniform_array_put (T : type) (values : list (object T))
    (stream : ostream) :
  is_null_pack (repeat T (List.length values)) = false ->
  put_object (Tarray (repeat T (List.length values)))
    (make_array _ (uniform T values)) stream
  = (stream ++ marker.array :: digits (N.of_nat (List.length values)) ++ crlf
     ++ List.concat (map (encoding T) values))%list.
Proof.
  intros H. rewrite (make_array_put _ H), put_each_encodings.
  rewrite encodings_uniform, repeat_length. solve_append.
Qed.

Lemma list_array_put_app (Ts : list type) (items : array.list_type)
    (self : object (Tarray Ts)) (stream : ostream) :
  make_list_array Ts items = Some self ->
  put_object (Tarray Ts) self stream
  = (stream ++ marker.array
       :: digits (fold_left (fun count _ => size_incr count) items 0) ++ crlf
       ++ List.concat
            (map (fun i => marker.simple_string :: string_view.chars i ++ crlf)
               items))%list.
Proof.
  revert self. unfold make_list_array. cbn [put_object object].
  destruct (is_null_pack Ts); intros self Hself; [discriminate Hself|].
  injection Hself as <-.
  unfold array.put, array.of_list. cbn [array.values_].
  rewrite put_list_app. solve_append.
Qed.

(** X8. An array built from a list of texts is written as the same bytes as
    the array built from as many simple strings, one of each text, in the
    same order. *)
Theorem list_array_as_fixed_array
    (Ts : list type) (items : array.list_type)
    (self : object (Tarray Ts)) (stream : ostream) :
  make_list_array Ts items = Some self ->
  N.of_nat (List.length items) < 2 ^ 64 ->
  let strings : list (object Tsimple_string) :=
    map simple_string.make items in
  put_object (Tarray Ts) self stream
  = put_object (Tarray (repeat Tsimple_string (List.length strings)))
      (make_array _ (uniform Tsimple_string strings)) stream.
Proof.
  intros Hself Hk. cbv zeta.
  rewrite (list_array_put_app Ts items self stream Hself).
  rewrite count_loop by lia. rewrite N.add_0_l.
  rewrite uniform_array_put.
  - rewrite length_map, map_map.
    rewrite (map_ext _ _ (fun i => encoding_simple_string i)).
    reflexivity.
  - apply not_null_pack_repeat. discriminate.
Qed.

Lemma list_array_as_fixed_array_witness :
  exists self : object (Tarray []),
    make_list_array []
      [string_view.of_bytes (text "PING"); string_view.of_bytes (text "x")]
    = Some self
    /\ put_object (Tarray []) self []
       = put_object (Tarray [Tsimple_string; Tsimple_string])
           (make_array [Tsimple_string; Tsimple_string]
              ({| simple_string.value_ := string_view.of_bytes (text "PING") |},
               ({| simple_string.value_ := string_view.of_bytes (text "x") |},
                tt))) [].
Proof.
  eexists. split; [reflexivity|].
  refine (list_array_as_fixed_array []
            [string_view.of_bytes (text "PING"); string_view.of_bytes (text "x")]
            _ [] eq_refl _).
  vm_compute. reflexivity.
Defined.

(** ** The null array and the other arrays *)

Lemma is_null_pack_true (Ts : list type) :
  is_null_pack Ts = true -> Ts = [Tnull].
Proof.
  destruct Ts as [|T Ts]; [discriminate|].
  destruct T, Ts; try discriminate. reflexivity.
Qed.

(** X9. The bytes [*-1\r\n] are written by the class [array<null>] alone:
    no object of another class, and no array built from items or from a
    list, is written so. *)
Theorem null_array_form_only_from_null_pack (T : type) (value : object T) :
  encoding T value = (text "*-1" ++ crlf)%list -> T = Tarray [Tnull].
Proof.
  unfold encoding.
  destruct T as [| | K | | | | Ts]; cbn [put_object object] in *; intros E.
  - rewrite simple_string_put_app in E. discriminate E.
  - rewrite error_message_put_app in E. discriminate E.
  - rewrite integer_put_app in E. discriminate E.
  - rewrite bulk_string_put_app in E.
    destruct (string_view.data (bulk_string.value_ value)); discriminate E.
  - rewrite binary_data_put_app in E.
    destruct (binary_data.data_ value); discriminate E.
  - rewrite null_put_app in E. discriminate E.
  - revert value E. destruct (is_null_pack Ts) eqn:P; intros value E.
    + rewrite (is_null_pack_true Ts P). reflexivity.
    + exfalso. destruct value as [[values|values]]; unfold array.put in E;
        cbn [array.values_] in E.
      * rewrite put_each_encodings in E. unfold_inserters_in E.
        flatten_app_in E. injection E as E.
        destruct (digits_head (N.of_nat (List.length Ts)))
          as (c & t & D & Hc).
        rewrite D in E. injection E as -> _. discriminate Hc.
      * rewrite put_list_app in E. unfold_inserters_in E.
        flatten_app_in E. injection E as E.
        destruct (digits_head
                    (fold_left (fun count _ => size_incr count) values 0))
          as (c & t & D & Hc).
        rewrite D in E. injection E as -> _. discriminate Hc.
Qed.

Lemma null_array_form_only_from_null_pack_witness :
  Tarray [Tnull] = Tarray [Tnull].
Proof.
  exact (null_array_form_only_from_null_pack (Tarray [Tnull])
           (make_array [Tnull] (null.make, tt)) eq_refl).
Defined.

(** ** Arrays of bulk strings *)

Lemma bulk_strings_unique (args1 : list bulk_string.t) :
  forall (args2 : list bulk_string.t) (rest1 rest2 : list char_type),
    List.length args1 = List.length args2 ->
    (List.concat (map (encoding Tbulk_string) args1) ++ rest1)%list
    = (List.concat (map (encoding Tbulk_string) args2) ++ rest2)%list ->
    args1 = args2 /\ rest1 = rest2.
Proof.
  induction args1 as [|a args1 IH]; intros [|b args2] rest1 rest2 L E;
    try discriminate L; cbn [map List.concat app] in E.
  - split; [reflexivity | exact E].
  - injection L as L. rewrite <- !app_assoc in E.
    destruct (bulk_string_encoding_unique _ _ _ _ E) as [-> E'].
    destruct (IH args2 rest1 rest2 L E') as [-> ->].
    split; reflexivity.
Qed.

(** X10. An array of bulk strings, the form of a command, can be read in one
    way only: when two such arrays, each followed by any bytes, are written
    as the same bytes, they hold the same bulk strings in the same order, and
    the bytes that follow are the same. *)
Theorem bulk_string_array_unique
    (args1 args2 : list (object Tbulk_string))
    (rest1 rest2 : list char_type) :
  (encoding (Tarray (repeat Tbulk_string (List.length args1)))
     (make_array _ (uniform Tbulk_string args1)) ++ rest1)%list
  = (encoding (Tarray (repeat Tbulk_string (List.length args2)))
       (make_array _ (uniform Tbulk_string args2)) ++ rest2)%list ->
  args1 = args2 /\ rest1 = rest2.
Proof.
  unfold encoding.
  rewrite !uniform_array_put by (apply not_null_pack_repeat; discriminate).
  cbn [app]. intros E. injection E as E. flatten_app_in E.
  destruct (digits_run_unique _ _ _ _ (digits_all _) (digits_all _) E)
    as [D R].
  apply digits_inj, Nnat.Nat2N.inj in D. injection R as R.
  exact (bulk_strings_unique args1 args2 rest1 rest2 D R).
Qed.

Lemma bulk_string_array_unique_witness :
  [ {| bulk_string.value_ := string_view.of_bytes (text "GET") |};
    bulk_string.default ]
  = [ {| bulk_string.value_ := string_view.of_bytes (text "GET") |};
      bulk_string.default ]
  /\ text "+" = text "+".
Proof.
  exact (bulk_string_array_unique
           [ {| bulk_string.value_ := string_view.of_bytes (text "GET") |};
             bulk_string.default ]
           [ {| bulk_string.value_ := string_view.of_bytes (text "GET") |};
             bulk_string.default ]
           (text "+") (text "+") eq_refl).
Defined.

(** ** Null and empty views in simple strings *)

(** X11. What a simple string or an error message writes depends on the
    characters of its view only: two of them are written as the same bytes
    exactly when their views hold the same characters, so that a null view
    is written as the empty text is, [+\r\n] or [-\r\n]. *)
Theorem simple_string_bytes_by_characters
    (a b : string_view.t) (stream : ostream) :
  (simple_string.put {| simple_string.value_ := a |} stream
   = simple_string.put {| simple_string.value_ := b |} stream
   <-> string_view.chars a = string_view.chars b)
  /\ (error_message.put {| error_message.value_ := a |} stream
      = error_message.put {| error_message.value_ := b |} stream
      <-> string_view.chars a = string_view.chars b)
  /\ simple_string.put {| simple_string.value_ := string_view.empty |} stream
     = simple_string.put
         {| simple_string.value_ := string_view.of_bytes [] |} stream.
Proof.
  split; [|split].
  - rewrite !simple_string_put_app. cbn [simple_string.value_]. split.
    + intros E. apply app_inv_head in E. injection E as E.
      apply app_inv_tail in E. exact E.
    + intros ->. reflexivity.
  - rewrite !error_message_put_app. cbn [error_message.value_]. split.
    + intros E. apply app_inv_head in E. injection E as E.
      apply app_inv_tail in E. exact E.
    + intros ->. reflexivity.
  - reflexivity.
Qed.
